(** * Reservoir leveling: a shallow embedding of [src/src/equalizer.py]

    The Python module works on a list of integers ([volumes]) with three
    functions: [can_equalize], [min_operations] and
    [simulate_equalization].  Python integers are unbounded, so a volume
    is a [Z]; a Python list is a [list Z].  Every index the module computes
    comes out of a [range] whose values are non-negative, so an index is a
    [nat]; reading or writing a position outside the list raises
    [IndexError], which the embedding renders as [None]. *)

From stdpp Require Import base option list gmap.
From Equations Require Import Equations.
From Equations.Prop Require Import Logic.
From Stdlib Require Import ZArith Lia.

Local Open Scope Z_scope.

(** ** Python primitives *)

Module Py.

(** [len(l)] *)
Definition len (l : list Z) : Z := Z.of_nat (length l).

(** [l[i]] for [i >= 0]: [IndexError] outside the list. *)
Definition getitem (l : list Z) (i : nat) : option Z := l !! i.

(** [l[i] = v] for [i >= 0]: [IndexError] outside the list, the stored
    list object changes otherwise. *)
Definition setitem (l : list Z) (i : nat) (v : Z) : option (list Z) :=
  if decide (i < length l)%nat then Some (<[i := v]> l) else None.

(** [range(start, stop)] with [start >= 0]: empty when [stop <= start]. *)
Definition range (start : nat) (stop : Z) : list nat :=
  seq start (Z.to_nat (stop - Z.of_nat start)).

(** [range(start, -1, -1)]: [start, start - 1, ..., 0], empty when
    [start < 0]. *)
Definition range_down (start : Z) : list nat :=
  reverse (seq 0 (Z.to_nat (start + 1))).

(** [for i in idx: s = body(i, s)], stopping at the first exception. *)
Fixpoint for_each {St : Type} (idx : list nat) (body : nat → St → option St)
    (s : St) : option St :=
  match idx with
  | [] => Some s
  | i :: idx' => s' ← body i s; for_each idx' body s'
  end.

(** [len(set(l))] *)
Definition len_set (l : list Z) : nat := size (list_to_set l : gset Z).

(** [max(l)]: [ValueError] on the empty list. *)
Definition max (l : list Z) : option Z :=
  match l with
  | [] => None
  | x :: xs => Some (fold_left Z.max xs x)
  end.

End Py.

(** ** [can_equalize] *)

(** The loop [for i in range(1, len(volumes))] with its early
    [return False]; falling off the end of the loop is [return True].
    The positions start at [1], so [i - 1] is never negative. *)
Fixpoint can_equalize_loop (volumes : list Z) (idx : list nat) : option bool :=
  match idx with
  | [] => Some true
  | i :: idx' =>
      a ← Py.getitem volumes i;
      b ← Py.getitem volumes (i - 1)%nat;
      if bool_decide (a < b) then Some false else can_equalize_loop volumes idx'
  end.

Definition can_equalize (volumes : list Z) : option bool :=
  can_equalize_loop volumes (Py.range 1 (Py.len volumes)).

(** ** [min_operations] *)

(** The inner loop [for j in range(i+1): volumes[j] += diff]. *)
Definition add_to_prefix (diff : Z) (i : nat) (volumes : list Z)
    : option (list Z) :=
  Py.for_each (Py.range 0 (Z.of_nat i + 1))
    (λ j vs, x ← Py.getitem vs j; Py.setitem vs j (x + diff)) volumes.

(** One round of [for i in range(n-2, -1, -1)] in [min_operations]; the
    state is the counter [operations] and the list object [volumes]. *)
Definition min_operations_body (i : nat) (st : Z * list Z)
    : option (Z * list Z) :=
  let '(operations, volumes) := st in
  a ← Py.getitem volumes i;
  b ← Py.getitem volumes (i + 1)%nat;
  if bool_decide (a < b) then
    b' ← Py.getitem volumes (i + 1)%nat;
    a' ← Py.getitem volumes i;
    let diff := b' - a' in
    volumes' ← add_to_prefix diff i volumes;
    Some (operations + diff, volumes')
  else Some (operations, volumes).

(** [min_operations] works on the list object it is given: the result
    pairs the returned integer with the content of the caller's list when
    the call returns. *)
Definition min_operations_run (volumes : list Z) : option (Z * list Z) :=
  feasible ← can_equalize volumes;
  if negb feasible then Some (-1, volumes)
  else
    let n := Py.len volumes in
    if decide (Py.len_set volumes = 1%nat) then Some (0, volumes)
    else Py.for_each (Py.range_down (n - 2)) min_operations_body (0, volumes).

(** The integer [min_operations(volumes)] returns. *)
Definition min_operations (volumes : list Z) : option Z :=
  fst <$> min_operations_run volumes.

(** ** [simulate_equalization] *)

(** The local variables of [simulate_equalization]. *)
Record sim_state : Type := SimState {
  current_volumes : list Z;
  operations : Z;
  states : list (list Z)
}.

(** The test [current_volumes[i] < current_volumes[i+1]]. *)
Definition sim_cond (i : nat) (st : sim_state) : option bool :=
  a ← Py.getitem (current_volumes st) i;
  b ← Py.getitem (current_volumes st) (i + 1)%nat;
  Some (bool_decide (a < b)).

(** The body of the [while]: one unit added to the first [i+1] reservoirs,
    the counter advanced, a copy of the list appended to the trace. *)
Definition sim_body (i : nat) (st : sim_state) : option sim_state :=
  cur ← add_to_prefix 1 i (current_volumes st);
  Some {| current_volumes := cur;
          operations := operations st + 1;
          states := states st ++ [cur] |}.

(** What is left to pour at position [i]; the measure of the [while]. *)
Definition gap (i : nat) (st : sim_state) : nat :=
  match Py.getitem (current_volumes st) i,
        Py.getitem (current_volumes st) (i + 1)%nat with
  | Some a, Some b => Z.to_nat (b - a)
  | _, _ => 0%nat
  end.

(** ** The prefix operation, and why the [while] terminates *)

(** The list [l] with [d] added to its first [k] elements: the effect of
    the inner loop, stated on the whole list at once. *)
Definition raise_prefix (d : Z) (k : nat) (l : list Z) : list Z :=
  ((λ x, x + d) <$> take k l) ++ drop k l.

Lemma for_each_app {St : Type} (xs ys : list nat) (body : nat → St → option St) s :
  Py.for_each (xs ++ ys) body s = s' ← Py.for_each xs body s; Py.for_each ys body s'.
Proof.
  revert s. induction xs as [|x xs IH]; intros s; simpl; [done|].
  destruct (body x s) as [s1|]; simpl; [apply IH | done].
Qed.

Lemma for_each_cons {St : Type} i idx (body : nat → St → option St) s :
  Py.for_each (i :: idx) body s = s' ← body i s; Py.for_each idx body s'.
Proof. done. Qed.

Lemma length_raise_prefix d k l : length (raise_prefix d k l) = length l.
Proof.
  unfold raise_prefix.
  rewrite length_app, length_fmap, <- length_app, take_drop. done.
Qed.

Lemma raise_prefix_lookup d k l (j : nat) :
  raise_prefix d k l !! j =
  if decide (j < k)%nat then (λ x, x + d) <$> l !! j else l !! j.
Proof.
  unfold raise_prefix. case_decide as Hj.
  - destruct (decide (j < length l)%nat) as [Hl|Hl].
    + rewrite lookup_app_l by (rewrite length_fmap, length_take; lia).
      rewrite list_lookup_fmap, lookup_take_lt by lia. done.
    + rewrite (lookup_ge_None_2 l j) by lia. simpl.
      apply lookup_ge_None_2.
      rewrite length_app, length_fmap, <- length_app, take_drop. lia.
  - destruct (decide (k ≤ length l)%nat) as [Hl|Hl].
    + rewrite lookup_app_r by (rewrite length_fmap, length_take; lia).
      rewrite length_fmap, length_take, lookup_drop.
      f_equal. lia.
    + rewrite take_ge, drop_ge, app_nil_r by lia.
      rewrite !lookup_ge_None_2; [done | lia | rewrite length_fmap; lia].
Qed.

Lemma raise_prefix_0 d l : raise_prefix d 0 l = l.
Proof. done. Qed.

Lemma raise_prefix_S d k l x :
  l !! k = Some x →
  <[k := x + d]> (raise_prefix d k l) = raise_prefix d (S k) l.
Proof.
  intros Hx. pose proof (lookup_lt_Some _ _ _ Hx) as Hk.
  apply list_eq. intros j.
  rewrite list_lookup_insert, length_raise_prefix, !raise_prefix_lookup.
  repeat case_decide; destruct_and?; subst; try lia; try done.
  by rewrite Hx.
Qed.

(** The inner loop, run over the first [k] positions of a list that has them. *)
Lemma add_loop_prefix d k l :
  (k ≤ length l)%nat →
  Py.for_each (seq 0 k)
    (λ j vs, x ← Py.getitem vs j; Py.setitem vs j (x + d)) l
  = Some (raise_prefix d k l).
Proof.
  induction k as [|k IH]; intros Hk; [done|].
  rewrite seq_S, for_each_app, IH by lia. simpl.
  destruct (lookup_lt_is_Some_2 l k) as [x Hx]; [lia|].
  unfold Py.getitem, Py.setitem.
  rewrite raise_prefix_lookup, decide_False by lia.
  rewrite Hx. simpl.
  rewrite decide_True by (rewrite length_raise_prefix; lia).
  simpl. by rewrite (raise_prefix_S d k l x).
Qed.

Lemma add_to_prefix_in_range d i l :
  (i < length l)%nat →
  add_to_prefix d i l = Some (raise_prefix d (S i) l).
Proof.
  intros Hi. unfold add_to_prefix, Py.range.
  replace (Z.to_nat (Z.of_nat i + 1 - Z.of_nat 0)) with (S i) by lia.
  apply add_loop_prefix. lia.
Qed.

Lemma sim_cond_true i st :
  sim_cond i st = Some true →
  ∃ a b, current_volumes st !! i = Some a ∧
         current_volumes st !! (i + 1)%nat = Some b ∧ a < b.
Proof.
  unfold sim_cond, Py.getitem. intros H.
  destruct (current_volumes st !! i) as [a|]; [|done].
  destruct (current_volumes st !! (i + 1)%nat) as [b|]; [|done].
  simpl in H. exists a, b. split_and!; [done..|].
  injection H as H. by apply bool_decide_eq_true in H.
Qed.

Lemma sim_body_in_range i st :
  (i < length (current_volumes st))%nat →
  sim_body i st =
  Some {| current_volumes := raise_prefix 1 (S i) (current_volumes st);
          operations := operations st + 1;
          states := states st ++ [raise_prefix 1 (S i) (current_volumes st)] |}.
Proof. intros Hi. unfold sim_body. by rewrite add_to_prefix_in_range. Qed.

(** Each round of the [while] closes the gap at position [i] by one. *)
Lemma sim_body_gap i st st' :
  sim_cond i st = Some true → sim_body i st = Some st' →
  (gap i st' < gap i st)%nat.
Proof.
  intros (a & b & Ha & Hb & Hab)%sim_cond_true Hbody.
  rewrite sim_body_in_range in Hbody by (by eapply lookup_lt_Some).
  injection Hbody as <-. unfold gap, Py.getitem. simpl.
  rewrite !raise_prefix_lookup, decide_True, decide_False by lia.
  rewrite Ha, Hb. simpl. lia.
Qed.

(** The loop [while current_volumes[i] < current_volumes[i+1]: ...]. *)
Equations while_loop (i : nat) (st : sim_state) : option sim_state
    by wf (gap i st) lt :=
  while_loop i st with inspect (sim_cond i st) := {
    | exist _ (Some true) Hcond with inspect (sim_body i st) := {
        | exist _ (Some st') Hbody := while_loop i st'
        | exist _ None _ := None }
    | exist _ (Some false) _ := Some st
    | exist _ None _ := None }.
Next Obligation. by eapply sim_body_gap. Qed.

(** [simulate_equalization]: the returned pair of the operation count and
    the list of states.  The working list is a copy, so the caller's list
    is left alone. *)
Definition simulate_equalization (volumes : list Z)
    : option (Z * list (list Z)) :=
  feasible ← can_equalize volumes;
  if negb feasible then Some (-1, [volumes])
  else
    let n := Py.len volumes in
    st ← Py.for_each (Py.range_down (n - 2)) while_loop
           {| current_volumes := volumes; operations := 0;
              states := [volumes] |};
    Some (operations st, states st).

(** ** [visualize_equalization] *)

(** What [visualize_equalization] hands to the plotting library for its one
    figure: the bar heights of the left chart, those of the right chart,
    and the operation count printed in the right chart's title. *)
Record figure : Type := Figure {
  left_bars : list Z;
  right_bars : list Z;
  title_operations : Z
}.

(** [visualize_equalization(initial_volumes, show_plot)]: the returned
    pair, and the figures shown on the way.  [states[-1]] is the last
    state, [IndexError] on an empty trace. *)
Definition visualize_equalization (initial_volumes : list Z) (show_plot : bool)
    : option ((Z * list Z) * list figure) :=
  '(operations, states) ← simulate_equalization initial_volumes;
  if decide (operations = -1) then Some ((-1, initial_volumes), [])
  else
    shown ←
      (if show_plot && bool_decide (1 < length states)%nat then
         final ← last states;
         Some [ {| left_bars := initial_volumes; right_bars := final;
                   title_operations := operations |} ]
       else Some []);
    final ← last states;
    Some ((operations, final), shown).

(** ** Vocabulary of the specification *)

(** A sequence is non-decreasing when [vs[i] >= vs[i-1]] for every [i] in
    [1 .. len(vs) - 1]. *)
Definition non_decreasing (vs : list Z) : Prop :=
  ∀ (i : nat) x y, (1 ≤ i < length vs)%nat →
    vs !! i = Some x → vs !! (i - 1)%nat = Some y → y ≤ x.

(** [B] is [A] after one prefix operation: for some [k] in [1 .. n], the
    first [k] of the [n] reservoirs gain one unit and the others keep
    their volume. *)
Definition prefix_step (n : nat) (A B : list Z) : Prop :=
  ∃ k : nat, (1 ≤ k ≤ n)%nat ∧ length A = n ∧ length B = n ∧
    (∀ (j : nat) a, (j < k)%nat → A !! j = Some a → B !! j = Some (a + 1)) ∧
    (∀ j : nat, (k ≤ j)%nat → B !! j = A !! j).

(** Every two consecutive states of a trace are one prefix operation apart. *)
Definition unit_steps (n : nat) (T : list (list Z)) : Prop :=
  ∀ (m : nat) A B, T !! m = Some A → T !! S m = Some B → prefix_step n A B.

(** What the simulation keeps true of its trace: it ends in the working
    list, holds one state more than operations were counted, and advances
    by prefix operations. *)
Definition trace_ok (n : nat) (st : sim_state) : Prop :=
  last (states st) = Some (current_volumes st) ∧
  Z.of_nat (length (states st)) = operations st + 1 ∧
  unit_steps n (states st).

(** The sequence of [n - 1] zeros followed by [M]. *)
Definition zeros_then (n : nat) (M : Z) : list Z := replicate (n - 1) 0 ++ [M].

(** The working list of a scan of [vs] once positions [k ..] are at the
    level [M]: the first [k] reservoirs carry their input value plus the
    [c] units poured so far, the others hold [M]. *)
Definition levelled (vs : list Z) (M c : Z) (k : nat) : list Z :=
  ((λ x, x + c) <$> take k vs) ++ replicate (length vs - k) M.

(** All reservoirs hold the same volume. *)
Definition level (l : list Z) : Prop := ∀ x y, x ∈ l → y ∈ l → x = y.

(** The list after the prefix operations [ks], applied in order: the
    operation [k] adds one unit to the first [k] reservoirs. *)
Fixpoint prefix_ops (ks : list nat) (l : list Z) : list Z :=
  match ks with
  | [] => l
  | k :: ks' => prefix_ops ks' (raise_prefix 1 k l)
  end.

(** The states passed through while the operations [ks] are applied to [l],
    [l] itself first. *)
Fixpoint trace_of (l : list Z) (ks : list nat) : list (list Z) :=
  l :: match ks with
       | [] => []
       | k :: ks' => trace_of (raise_prefix 1 k l) ks'
       end.

(** A list of prefix lengths that never grows from one to the next. *)
Definition non_increasing (ks : list nat) : Prop :=
  ∀ (i j a b : nat), (i ≤ j)%nat → ks !! i = Some a → ks !! j = Some b → (b ≤ a)%nat.

(** Some sequence of prefix operations makes all reservoirs equal. *)
Definition equalizable (l : list Z) : Prop :=
  ∃ ks, Forall (λ k, 1 ≤ k ≤ length l)%nat ks ∧ level (prefix_ops ks l).

(** What the simulation of [vs] keeps true beyond [trace_ok]: its trace is
    the replay of prefix operations [ks] on the input, counted one by one,
    each at least [lo] long and short of the last reservoir, never longer
    than the one before; and every state is as long as the input,
    non-decreasing, and ends in the level [M]. *)
Definition replay_inv (vs : list Z) (M : Z) (lo : nat) (st : sim_state) : Prop :=
  ∃ ks, states st = trace_of vs ks ∧
        current_volumes st = prefix_ops ks vs ∧
        operations st = Z.of_nat (length ks) ∧
        Forall (λ k, lo ≤ k < length vs)%nat ks ∧
        non_increasing ks ∧
        Forall (λ A, length A = length vs ∧ non_decreasing A ∧ last A = Some M)
               (states st).

(** ** Reasoning about the loops *)

Lemma while_loop_eq i st :
  while_loop i st =
  match sim_cond i st with
  | Some true =>
      match sim_body i st with
      | Some st' => while_loop i st'
      | None => None
      end
  | Some false => Some st
  | None => None
  end.
Proof.
  funelim (while_loop i st).
  all: repeat match goal with
       | E : ?x = _ |- context [match ?x with _ => _ end] => rewrite E
       end; done.
Qed.

(** ** Feasibility *)

Lemma non_decreasing_adjacent vs (k : nat) x y :
  non_decreasing vs → vs !! k = Some x → vs !! S k = Some y → x ≤ y.
Proof.
  intros Hnd Hx Hy. apply (Hnd (S k) y x).
  - apply lookup_lt_Some in Hy. lia.
  - done.
  - by replace (S k - 1)%nat with k by lia.
Qed.

Lemma non_decreasing_le vs (i j : nat) x y :
  non_decreasing vs → (i ≤ j)%nat → vs !! i = Some x → vs !! j = Some y → x ≤ y.
Proof.
  intros Hnd Hij Hx. revert y. induction Hij as [|j Hij IH]; intros y Hy.
  - rewrite Hx in Hy. injection Hy as ->. lia.
  - destruct (lookup_lt_is_Some_2 vs j) as [z Hz].
    { apply lookup_lt_Some in Hy. lia. }
    pose proof (IH z Hz). pose proof (non_decreasing_adjacent vs j z y Hnd Hz Hy).
    lia.
Qed.

Lemma non_decreasing_tail x vs : non_decreasing (x :: vs) → non_decreasing vs.
Proof.
  intros Hnd i a b Hi Ha Hb. apply (Hnd (S i) a b); simpl in *; [lia|done|].
  destruct i as [|i]; [lia|]. simpl in *. by rewrite Nat.sub_0_r in Hb.
Qed.

(** The scan over a list of in-range positions never raises, and answers
    [True] exactly when no scanned position is an inversion. *)
Lemma can_equalize_loop_spec vs idx :
  (∀ i, i ∈ idx → (1 ≤ i < length vs)%nat) →
  ∃ b, can_equalize_loop vs idx = Some b ∧
       (b = true ↔
        ∀ i x y, i ∈ idx → vs !! i = Some x → vs !! (i - 1)%nat = Some y → y ≤ x).
Proof.
  induction idx as [|i idx IH]; intros Hidx; simpl.
  - exists true. split; [done|]. split; [|done]. intros _ i x y Hi. by inv Hi.
  - destruct (lookup_lt_is_Some_2 vs i) as [a Ha].
    { pose proof (Hidx i ltac:(left)). lia. }
    destruct (lookup_lt_is_Some_2 vs (i - 1)%nat) as [b Hb].
    { pose proof (Hidx i ltac:(left)). lia. }
    unfold Py.getitem. rewrite Ha, Hb. simpl.
    case_bool_decide as Hab.
    + exists false. split; [done|]. split; [done|]. intros Hall.
      pose proof (Hall i a b ltac:(left) Ha Hb). lia.
    + destruct IH as (r & Hr & Hiff).
      { intros j Hj. apply Hidx. by right. }
      exists r. split; [done|]. rewrite Hiff. split.
      * intros Hall j x y [->|Hj]%elem_of_cons Hx Hy; [|by eapply Hall].
        assert (x = a) as -> by congruence.
        assert (y = b) as -> by congruence. lia.
      * intros Hall j x y Hj. apply Hall. by right.
Qed.

Lemma range_1_len vs : Py.range 1 (Py.len vs) = seq 1 (length vs - 1).
Proof. unfold Py.range, Py.len. f_equal. lia. Qed.

Lemma can_equalize_spec vs :
  ∃ b, can_equalize vs = Some b ∧ (b = true ↔ non_decreasing vs).
Proof.
  unfold can_equalize. rewrite range_1_len.
  destruct (can_equalize_loop_spec vs (seq 1 (length vs - 1))) as (b & Hb & Hiff).
  { intros i Hi%elem_of_seq. lia. }
  exists b. split; [done|]. rewrite Hiff. split.
  - intros Hall i x y Hi. apply Hall. apply elem_of_seq. lia.
  - intros Hnd i x y Hi%elem_of_seq. apply Hnd. lia.
Qed.

Lemma can_equalize_feasible vs : non_decreasing vs → can_equalize vs = Some true.
Proof.
  intros Hnd. destruct (can_equalize_spec vs) as (b & Hb & Hiff).
  apply Hiff in Hnd. by subst.
Qed.

Lemma can_equalize_infeasible vs : ¬ non_decreasing vs → can_equalize vs = Some false.
Proof.
  intros Hnd. destruct (can_equalize_spec vs) as (b & Hb & Hiff).
  destruct b; [|done]. destruct Hnd. by apply Hiff.
Qed.

(** ** Traces *)

Lemma raise_prefix_step (k : nat) A :
  (1 ≤ k ≤ length A)%nat → prefix_step (length A) A (raise_prefix 1 k A).
Proof.
  intros Hk. exists k. split_and!; [lia | lia | done | apply length_raise_prefix | |].
  - intros j a Hj Ha. by rewrite raise_prefix_lookup, decide_True, Ha by lia.
  - intros j Hj. by rewrite raise_prefix_lookup, decide_False by lia.
Qed.

Lemma unit_steps_snoc n T A B :
  unit_steps n T → last T = Some A → prefix_step n A B → unit_steps n (T ++ [B]).
Proof.
  intros HT Hlast HAB m X Y HX HY.
  pose proof (lookup_lt_Some _ _ _ HY) as Hm. rewrite length_app in Hm. simpl in Hm.
  destruct (decide (S m < length T)%nat) as [Hlt|Hge].
  - rewrite lookup_app_l in HX, HY by lia. by eapply HT.
  - assert (S m = length T) as Hlen by lia.
    rewrite lookup_app_l in HX by lia.
    rewrite lookup_app_r in HY by lia.
    rewrite Hlen, Nat.sub_diag in HY. simpl in HY.
    rewrite last_lookup in Hlast.
    replace (pred (length T)) with m in Hlast by lia.
    assert (X = A) as -> by congruence.
    assert (Y = B) as -> by congruence. done.
Qed.

(** ** The invariant of the right-to-left scan *)

Section scan.

Variable vs : list Z.
Variable M : Z.
Hypothesis Hnd : non_decreasing vs.
Hypothesis HM : last vs = Some M.

Local Abbreviation lvl := (levelled vs M).

Lemma levelled_lookup c k (j : nat) :
  (k ≤ length vs)%nat →
  lvl c k !! j =
  if decide (j < k)%nat then (λ x, x + c) <$> vs !! j
  else if decide (j < length vs)%nat then Some M else None.
Proof.
  intros Hk. unfold levelled.
  assert (length ((λ x, x + c) <$> take k vs) = k) as Hlen
    by (rewrite length_fmap, length_take; lia).
  case_decide.
  - rewrite lookup_app_l by lia.
    by rewrite list_lookup_fmap, lookup_take_lt by lia.
  - rewrite lookup_app_r, Hlen by lia. case_decide.
    + apply lookup_replicate_2. lia.
    + apply lookup_replicate_None. lia.
Qed.

Lemma length_levelled c k : (k ≤ length vs)%nat → length (lvl c k) = length vs.
Proof.
  intros Hk. unfold levelled.
  rewrite length_app, length_fmap, length_take, length_replicate. lia.
Qed.

Lemma levelled_full : lvl 0 (length vs) = vs.
Proof.
  unfold levelled. rewrite Nat.sub_diag, firstn_all, app_nil_r.
  rewrite <- (list_fmap_id vs) at 2. apply list_fmap_ext. intros; simpl; lia.
Qed.

Lemma levelled_0 c : lvl c 0 = replicate (length vs) M.
Proof. unfold levelled. by rewrite take_0, Nat.sub_0_r. Qed.

(** A position that has reached the level [M] joins the finished part. *)
Lemma levelled_finish c k x :
  vs !! k = Some x → x + c = M → lvl c (S k) = lvl c k.
Proof.
  intros Hx Hc. pose proof (lookup_lt_Some _ _ _ Hx) as Hk.
  apply list_eq. intros j. rewrite !levelled_lookup by lia.
  repeat case_decide; try lia; try done.
  assert (j = k) as -> by lia. rewrite Hx. simpl. by rewrite Hc.
Qed.

(** Pouring [d] more units into the unfinished part. *)
Lemma raise_levelled d c k :
  (k ≤ length vs)%nat → raise_prefix d k (lvl c k) = lvl (c + d) k.
Proof.
  intros Hk. apply list_eq. intros j.
  rewrite raise_prefix_lookup, !levelled_lookup by lia.
  case_decide; [|done].
  destruct (vs !! j); simpl; [|done]. f_equal. lia.
Qed.

Lemma last_position : vs !! (length vs - 1)%nat = Some M.
Proof. rewrite <- HM, last_lookup. f_equal. lia. Qed.

Lemma levelled_start : lvl 0 (length vs - 1) = vs.
Proof.
  pose proof last_position as Hl. pose proof (lookup_lt_Some _ _ _ Hl) as Hn.
  transitivity (lvl 0 (S (length vs - 1))).
  - symmetry. apply (levelled_finish 0 _ M); [done | lia].
  - replace (S (length vs - 1)) with (length vs) by lia. apply levelled_full.
Qed.

(** One round of the scan of [min_operations]: position [k] is brought up
    to the level of position [k+1]. *)
Lemma min_operations_body_step (k : nat) x x' :
  vs !! k = Some x → vs !! S k = Some x' →
  min_operations_body k (M - x', lvl (M - x') (S k))
  = Some (M - x, lvl (M - x) k).
Proof.
  intros Hx Hx'. pose proof (lookup_lt_Some _ _ _ Hx') as Hk.
  pose proof (non_decreasing_adjacent _ _ _ _ Hnd Hx Hx') as Hle.
  unfold min_operations_body, Py.getitem.
  replace (k + 1)%nat with (S k) by lia.
  rewrite !levelled_lookup by lia.
  rewrite decide_True, decide_False, decide_True by lia.
  rewrite Hx. simpl. case_bool_decide as Hlt.
  - rewrite add_to_prefix_in_range by (rewrite length_levelled; lia).
    simpl. rewrite raise_levelled by lia.
    replace (M - x' + (M - (x + (M - x')))) with (M - x) by lia.
    by rewrite (levelled_finish (M - x) k x) by (done || lia).
  - assert (x = x') as <- by lia.
    by rewrite (levelled_finish (M - x) k x) by (done || lia).
Qed.

Lemma range_down_S (k : nat) : reverse (seq 0 (S k)) = k :: reverse (seq 0 k).
Proof. by rewrite seq_S, reverse_snoc. Qed.

(** The rounds still to run once positions [k ..] are finished. *)
Lemma min_operations_scan (k : nat) x x0 :
  vs !! k = Some x → vs !! 0%nat = Some x0 →
  Py.for_each (reverse (seq 0 k)) min_operations_body
    (M - x, lvl (M - x) k)
  = Some (M - x0, replicate (length vs) M).
Proof.
  revert x. induction k as [|k IH]; intros x Hx Hx0.
  - assert (x = x0) as -> by congruence. simpl. by rewrite levelled_0.
  - destruct (lookup_lt_is_Some_2 vs k) as [y Hy].
    { apply lookup_lt_Some in Hx. lia. }
    rewrite range_down_S, for_each_cons.
    rewrite (min_operations_body_step k y x) by done. simpl. by apply IH.
Qed.

(** The [while] at position [k], entered with [g] units still missing
    there: it stops, with position [k] at the level [M]. *)
Lemma while_loop_step (k : nat) x x' :
  vs !! k = Some x → vs !! S k = Some x' →
  ∀ (g : nat) st,
    current_volumes st = lvl (M - x - Z.of_nat g) (S k) →
    operations st = M - x - Z.of_nat g →
    trace_ok (length vs) st →
    ∃ st', while_loop k st = Some st' ∧
           current_volumes st' = lvl (M - x) k ∧
           operations st' = M - x ∧
           trace_ok (length vs) st'.
Proof.
  intros Hx Hx'. pose proof (lookup_lt_Some _ _ _ Hx') as Hk.
  induction g as [|g IH]; intros st Hcur Hops Hok; rewrite while_loop_eq.
  all: unfold sim_cond, Py.getitem; rewrite Hcur.
  all: replace (k + 1)%nat with (S k) by lia.
  all: rewrite !levelled_lookup by lia.
  all: repeat case_decide; try lia.
  all: rewrite Hx; simpl.
  - rewrite bool_decide_eq_false_2 by lia.
    exists st. split_and!; [done | | lia | done].
    rewrite Hcur. replace (M - x - Z.of_nat 0) with (M - x) by lia.
    apply (levelled_finish (M - x) k x); [done | lia].
  - rewrite bool_decide_eq_true_2 by lia.
    rewrite sim_body_in_range by (rewrite Hcur, length_levelled; lia).
    apply IH; simpl.
    + rewrite Hcur, raise_levelled by lia. f_equal. lia.
    + lia.
    + destruct Hok as (Hlast & Hlen & Hsteps). unfold trace_ok. simpl.
      split_and!.
      * apply last_snoc.
      * rewrite length_app. simpl. lia.
      * eapply unit_steps_snoc; [done..|].
        rewrite <- (length_levelled (M - x - Z.of_nat (S g)) (S k)) by lia.
        rewrite <- Hcur. apply raise_prefix_step. rewrite Hcur, length_levelled; lia.
Qed.

(** The rounds of the simulation still to run once positions [k ..] are
    finished. *)
Lemma simulate_scan (k : nat) x x0 st :
  vs !! k = Some x → vs !! 0%nat = Some x0 →
  current_volumes st = lvl (M - x) k →
  operations st = M - x →
  trace_ok (length vs) st →
  ∃ st', Py.for_each (reverse (seq 0 k)) while_loop st = Some st' ∧
         current_volumes st' = replicate (length vs) M ∧
         operations st' = M - x0 ∧
         trace_ok (length vs) st'.
Proof.
  revert x st. induction k as [|k IH]; intros x st Hx Hx0 Hcur Hops Hok.
  - assert (x = x0) as -> by congruence. exists st. simpl.
    by rewrite Hcur, levelled_0.
  - destruct (lookup_lt_is_Some_2 vs k) as [y Hy].
    { apply lookup_lt_Some in Hx. lia. }
    pose proof (non_decreasing_adjacent _ _ _ _ Hnd Hy Hx) as Hle.
    destruct (while_loop_step k y x Hy Hx (Z.to_nat (x - y)) st)
      as (st1 & Hrun & Hcur1 & Hops1 & Hok1).
    { rewrite Hcur. f_equal. lia. }
    { lia. }
    { done. }
    rewrite range_down_S, for_each_cons, Hrun. simpl. by eapply IH.
Qed.

Lemma range_down_len : Py.range_down (Py.len vs - 2) = reverse (seq 0 (length vs - 1)).
Proof. unfold Py.range_down, Py.len. do 2 f_equal. lia. Qed.

End scan.

(** ** What the functions return on a feasible input *)

(** [len(set(vs)) == 1] holds only when all elements are equal. *)
Lemma len_set_1_equal vs x y :
  Py.len_set vs = 1%nat → x ∈ vs → y ∈ vs → x = y.
Proof.
  unfold Py.len_set. intros Hsize Hx Hy.
  apply (size_singleton_inv (list_to_set vs : gset Z)); [done|..];
    by apply elem_of_list_to_set.
Qed.

Lemma len_set_1_constant vs M :
  Py.len_set vs = 1%nat → last vs = Some M → vs = replicate (length vs) M.
Proof.
  intros Hsize HM. symmetry. apply replicate_as_Forall. split; [done|].
  apply Forall_forall. intros z Hz.
  apply (len_set_1_equal vs); [done | by apply last_Some_elem_of | done].
Qed.

(** On a feasible non-empty input, [min_operations] returns the last
    element minus the first, and leaves the caller's list levelled at the
    last element. *)
Lemma min_operations_run_feasible vs x0 M :
  non_decreasing vs → head vs = Some x0 → last vs = Some M →
  min_operations_run vs = Some (M - x0, replicate (length vs) M).
Proof.
  intros Hnd Hhead HM. unfold min_operations_run.
  rewrite can_equalize_feasible by done. simpl.
  rewrite head_lookup in Hhead. case_decide as Hsize.
  - rewrite <- (len_set_1_constant vs M) by done.
    assert (M = x0) as ->.
    { apply (len_set_1_equal vs); [done|..].
      - by apply last_Some_elem_of.
      - by eapply list_elem_of_lookup_2. }
    by rewrite Z.sub_diag.
  - rewrite range_down_len.
    pose proof (min_operations_scan vs M Hnd (length vs - 1) M x0
                  (last_position vs M HM) Hhead) as Hscan.
    by rewrite Z.sub_diag, levelled_start in Hscan.
Qed.

(** On a feasible non-empty input, [simulate_equalization] counts the same
    number of operations and returns a trace that ends levelled. *)
Lemma simulate_equalization_feasible vs x0 M :
  non_decreasing vs → head vs = Some x0 → last vs = Some M →
  ∃ T, simulate_equalization vs = Some (M - x0, T) ∧
       last T = Some (replicate (length vs) M) ∧
       Z.of_nat (length T) = (M - x0) + 1 ∧
       unit_steps (length vs) T.
Proof.
  intros Hnd Hhead HM. unfold simulate_equalization.
  rewrite can_equalize_feasible by done. simpl.
  rewrite head_lookup in Hhead. rewrite range_down_len.
  destruct (simulate_scan vs M Hnd (length vs - 1) M x0
              {| current_volumes := vs; operations := 0; states := [vs] |})
    as (st & Hrun & Hcur & Hops & Hlast & Hlen & Hsteps); simpl.
  - by apply last_position.
  - done.
  - by rewrite Z.sub_diag, levelled_start.
  - lia.
  - split_and!; simpl; [done | done |].
    intros m A B HA HB. by destruct m.
  - rewrite Hrun. simpl. exists (states st). rewrite Hops.
    split_and!; [done | congruence | lia | done].
Qed.

Lemma min_operations_run_nil : min_operations_run [] = Some (0, []).
Proof. reflexivity. Qed.

Lemma simulate_equalization_nil : simulate_equalization [] = Some (0, [[]]).
Proof. reflexivity. Qed.

(** On a non-decreasing list, Python's [max] is the last element. *)
Lemma max_non_decreasing vs : non_decreasing vs → Py.max vs = last vs.
Proof.
  destruct vs as [|x vs]; [done|]. simpl.
  revert x. induction vs as [|y vs IH]; intros x Hnd; [done|].
  rewrite last_cons_cons. simpl.
  pose proof (non_decreasing_adjacent (x :: y :: vs) 0 x y Hnd eq_refl eq_refl).
  rewrite Z.max_r by lia. apply IH. by eapply non_decreasing_tail.
Qed.

(** Building non-decreasing lists. *)
Lemma non_decreasing_nil : non_decreasing [].
Proof. intros i x y Hi. simpl in Hi. lia. Qed.

Lemma non_decreasing_singleton x : non_decreasing [x].
Proof. intros i a b Hi. simpl in Hi. lia. Qed.

Lemma non_decreasing_cons x y vs :
  x ≤ y → non_decreasing (y :: vs) → non_decreasing (x :: y :: vs).
Proof.
  intros Hxy Hnd i a b Hi Ha Hb.
  destruct i as [|[|i]]; [lia | |].
  - simpl in *. assert (a = y) as -> by congruence.
    assert (b = x) as -> by congruence. done.
  - apply (Hnd (S i) a b); simpl in *; [lia | done |].
    by rewrite Nat.sub_0_r.
Qed.

Lemma head_le_last vs x0 M :
  non_decreasing vs → head vs = Some x0 → last vs = Some M → x0 ≤ M.
Proof.
  intros Hnd Hhead HM. rewrite head_lookup in Hhead. rewrite last_lookup in HM.
  eapply (non_decreasing_le vs 0 (pred (length vs))); [done | lia | done..].
Qed.

Lemma feasible_cases (vs : list Z) :
  vs = [] ∨ ∃ x0 M, head vs = Some x0 ∧ last vs = Some M.
Proof.
  destruct vs as [|x vs]; [by left | right].
  destruct (proj2 (last_is_Some (x :: vs))) as [M HM]; [done|].
  by exists x, M.
Qed.

Lemma non_decreasing_zeros_then n M : 0 ≤ M → non_decreasing (zeros_then n M).
Proof.
  intros HM i x y Hi Hx Hy. unfold zeros_then in *.
  rewrite length_app, length_replicate in Hi. simpl in Hi.
  rewrite lookup_app_l in Hy by (rewrite length_replicate; lia).
  apply lookup_replicate in Hy as [-> _].
  apply lookup_app_Some in Hx as [Hx|[_ Hx]].
  - apply lookup_replicate in Hx as [-> _]. lia.
  - apply list_lookup_singleton_Some in Hx as [_ <-]. done.
Qed.

Lemma head_zeros_then n M :
  head (zeros_then n M) = Some (if decide (n ≤ 1)%nat then M else 0).
Proof.
  unfold zeros_then. case_decide.
  - by replace (n - 1)%nat with 0%nat by lia.
  - by replace (n - 1)%nat with (S (n - 2)) by lia.
Qed.

(** ** The concrete scenarios of the test suite *)

Example min_operations_example1 : min_operations [1; 2] = Some 1.
Proof. reflexivity. Qed.

Example min_operations_example2 : min_operations [1; 1; 5; 5; 5] = Some 4.
Proof. reflexivity. Qed.

Example min_operations_example3 : min_operations [3; 2; 1] = Some (-1).
Proof. reflexivity. Qed.

Example min_operations_additional :
  min_operations [1; 1; 1; 1] = Some 0 ∧
  min_operations [0; 1; 2; 3] = Some 3 ∧
  min_operations [0; 0; 0; 5] = Some 5.
Proof. by split_and!. Qed.

Example simulate_equalization_example1 :
  simulate_equalization [1; 2] = Some (1, [[1; 2]; [2; 2]]).
Proof. by vm_compute. Qed.

Example simulate_equalization_example3 :
  simulate_equalization [3; 2; 1] = Some (-1, [[3; 2; 1]]).
Proof. reflexivity. Qed.

(** ** The claims *)

(** C1. For every sequence of integers, the empty and the single-element
    ones included, [can_equalize] returns (it never raises), and what it
    returns is true if and only if the sequence is non-decreasing. *)
Theorem can_equalize_iff_non_decreasing (vs : list Z) :
  ∃ b : bool, can_equalize vs = Some b ∧ (b = true ↔ non_decreasing vs).
Proof. apply can_equalize_spec. Qed.

(** C2. On every non-decreasing sequence, [min_operations] returns the
    operation count that [simulate_equalization] returns as the first
    component of its pair. *)
Theorem min_operations_eq_simulate_count (vs : list Z) :
  non_decreasing vs →
  ∃ ops T, simulate_equalization vs = Some (ops, T) ∧
           min_operations vs = Some ops.
Proof.
  intros Hnd. destruct (feasible_cases vs) as [->|(x0 & M & Hhead & HM)].
  - by exists 0, [[]].
  - destruct (simulate_equalization_feasible vs x0 M) as (T & Hsim & _); [done..|].
    exists (M - x0), T. split; [done|]. unfold min_operations.
    by rewrite (min_operations_run_feasible vs x0 M).
Qed.

Lemma min_operations_eq_simulate_count_witness :
  ∃ ops T, simulate_equalization [1; 1; 5; 5; 5] = Some (ops, T) ∧
           min_operations [1; 1; 5; 5; 5] = Some ops.
Proof.
  apply min_operations_eq_simulate_count.
  repeat (apply non_decreasing_cons; [lia|]). apply non_decreasing_singleton.
Defined.

(** C3. On every non-decreasing non-empty sequence of length [n], the last
    state of the trace [simulate_equalization] returns is [[max(vs)] * n]. *)
Theorem simulate_last_state_is_max (vs : list Z) :
  non_decreasing vs → vs ≠ [] →
  ∃ ops T m, simulate_equalization vs = Some (ops, T) ∧
             Py.max vs = Some m ∧
             last T = Some (replicate (length vs) m).
Proof.
  intros Hnd Hne. destruct (feasible_cases vs) as [->|(x0 & M & Hhead & HM)]; [done|].
  destruct (simulate_equalization_feasible vs x0 M) as (T & Hsim & Hlast & _); [done..|].
  exists (M - x0), T, M. split_and!; [done | | done].
  by rewrite max_non_decreasing.
Qed.

Lemma simulate_last_state_is_max_witness :
  ∃ ops T m, simulate_equalization [0; 1; 2; 3] = Some (ops, T) ∧
             Py.max [0; 1; 2; 3] = Some m ∧
             last T = Some (replicate (length [0; 1; 2; 3]) m).
Proof.
  apply simulate_last_state_is_max; [|done].
  repeat (apply non_decreasing_cons; [lia|]). apply non_decreasing_singleton.
Defined.

(** C4, as the code has it.  For every [n >= 1] and [M >= 0],
    [min_operations] on [n - 1] zeros followed by [M] returns [M] when
    [n >= 2] and [0] when [n = 1]: the one prefix operation reaching
    position [n - 2] raises all the zeros together. *)
Theorem min_operations_zeros_then (n : nat) (M : Z) :
  (1 ≤ n)%nat → 0 ≤ M →
  min_operations (zeros_then n M) = Some (if decide (n = 1%nat) then 0 else M).
Proof.
  intros Hn HM. unfold min_operations.
  rewrite (min_operations_run_feasible _ (if decide (n ≤ 1)%nat then M else 0) M).
  - simpl. f_equal. repeat case_decide; lia.
  - by apply non_decreasing_zeros_then.
  - apply head_zeros_then.
  - apply last_snoc.
Qed.

Lemma min_operations_zeros_then_witness :
  min_operations (zeros_then 4 5) = Some (if decide (4 = 1)%nat then 0 else 5).
Proof. apply min_operations_zeros_then; lia. Defined.

(** C4 as stated, [M * (n - 1)], fails: three zeros followed by [5] cost
    [5] operations, not [15]. *)
Lemma min_operations_zeros_then_not_product :
  ¬ (∀ (n : nat) (M : Z), (1 ≤ n)%nat → 0 ≤ M →
       min_operations (zeros_then n M) = Some (M * (Z.of_nat n - 1))).
Proof.
  intros H. specialize (H 4%nat 5 ltac:(lia) ltac:(lia)).
  vm_compute in H. discriminate.
Qed.

(** C5 fails on the code: [min_operations] adds into the list object it
    was given, so after [min_operations([1, 2])] returns [1] the caller's
    list holds [[2, 2]]. *)
Theorem min_operations_overwrites_input :
  min_operations_run [1; 2] = Some (1, [2; 2]).
Proof. reflexivity. Qed.

(** C6. On a sequence that is not non-decreasing, [min_operations]
    returns [-1] and [simulate_equalization] returns [(-1, [vs])], a trace
    of the input alone; on a non-decreasing one, [min_operations] returns
    a non-negative integer. *)
Theorem infeasible_sentinel (vs : list Z) :
  (¬ non_decreasing vs →
     min_operations vs = Some (-1) ∧
     simulate_equalization vs = Some (-1, [vs])) ∧
  (non_decreasing vs → ∃ k, min_operations vs = Some k ∧ 0 ≤ k).
Proof.
  split.
  - intros Hnd%can_equalize_infeasible.
    unfold min_operations, min_operations_run, simulate_equalization.
    by rewrite Hnd.
  - intros Hnd. destruct (feasible_cases vs) as [->|(x0 & M & Hhead & HM)].
    + by exists 0.
    + exists (M - x0). unfold min_operations.
      rewrite (min_operations_run_feasible vs x0 M) by done.
      split; [done|]. pose proof (head_le_last vs x0 M Hnd Hhead HM). lia.
Qed.

(** C7. On every non-decreasing sequence, the trace
    [simulate_equalization] returns has one state more than the operation
    count it returns. *)
Theorem simulate_trace_length (vs : list Z) :
  non_decreasing vs →
  ∃ ops T, simulate_equalization vs = Some (ops, T) ∧
           Z.of_nat (length T) = ops + 1.
Proof.
  intros Hnd. destruct (feasible_cases vs) as [->|(x0 & M & Hhead & HM)].
  - by exists 0, [[]].
  - destruct (simulate_equalization_feasible vs x0 M)
      as (T & Hsim & _ & Hlen & _); [done..|].
    by exists (M - x0), T.
Qed.

Lemma simulate_trace_length_witness :
  ∃ ops T, simulate_equalization [0; 0; 0; 5] = Some (ops, T) ∧
           Z.of_nat (length T) = ops + 1.
Proof.
  apply simulate_trace_length.
  repeat (apply non_decreasing_cons; [lia|]). apply non_decreasing_singleton.
Defined.

(** C8. On every non-decreasing sequence of length [n], any two
    consecutive states [A], [B] of the trace [simulate_equalization]
    returns are one unit prefix operation apart: for some [k] in
    [1 .. n], [B[j] = A[j] + 1] for [j < k] and [B[j] = A[j]] for
    [j >= k]. *)
Theorem simulate_trace_unit_prefix_steps (vs : list Z) :
  non_decreasing vs →
  ∃ ops T, simulate_equalization vs = Some (ops, T) ∧
    ∀ (m : nat) A B, T !! m = Some A → T !! S m = Some B →
      ∃ k : nat, (1 ≤ k ≤ length vs)%nat ∧
        length A = length vs ∧ length B = length vs ∧
        (∀ (j : nat) a, (j < k)%nat → A !! j = Some a → B !! j = Some (a + 1)) ∧
        (∀ j : nat, (k ≤ j)%nat → B !! j = A !! j).
Proof.
  intros Hnd. destruct (feasible_cases vs) as [->|(x0 & M & Hhead & HM)].
  - exists 0, [[]]. split; [done|]. intros m A B HA HB. by destruct m.
  - destruct (simulate_equalization_feasible vs x0 M)
      as (T & Hsim & _ & _ & Hsteps); [done..|].
    exists (M - x0), T. split; [done|]. apply Hsteps.
Qed.

Lemma simulate_trace_unit_prefix_steps_witness :
  ∃ ops T, simulate_equalization [1; 2; 4] = Some (ops, T) ∧
    ∀ (m : nat) A B, T !! m = Some A → T !! S m = Some B →
      ∃ k : nat, (1 ≤ k ≤ length [1; 2; 4])%nat ∧
        length A = length [1; 2; 4] ∧ length B = length [1; 2; 4] ∧
        (∀ (j : nat) a, (j < k)%nat → A !! j = Some a → B !! j = Some (a + 1)) ∧
        (∀ j : nat, (k ≤ j)%nat → B !! j = A !! j).
Proof.
  apply simulate_trace_unit_prefix_steps.
  repeat (apply non_decreasing_cons; [lia|]). apply non_decreasing_singleton.
Defined.

(** C9. [min_operations] returns [0] on the empty sequence and on every
    single-element sequence. *)
Theorem min_operations_trivial :
  min_operations [] = Some 0 ∧ ∀ x : Z, min_operations [x] = Some 0.
Proof.
  split; [done|]. intros x. unfold min_operations.
  rewrite (min_operations_run_feasible [x] x x); [|apply non_decreasing_singleton|done..].
  simpl. f_equal. lia.
Qed.

(** C10. On every non-decreasing non-empty sequence, negative volumes
    allowed, [min_operations] returns the last element of the input minus
    its first element. *)
Theorem min_operations_last_minus_first (vs : list Z) (a b : Z) :
  non_decreasing vs → head vs = Some a → last vs = Some b →
  min_operations vs = Some (b - a).
Proof.
  intros Hnd Hhead Hlast. unfold min_operations.
  by rewrite (min_operations_run_feasible vs a b).
Qed.

Lemma min_operations_last_minus_first_witness :
  min_operations [-7; -3; -3; 2] = Some (2 - -7).
Proof.
  apply min_operations_last_minus_first; [|done..].
  repeat (apply non_decreasing_cons; [lia|]). apply non_decreasing_singleton.
Defined.

(** * Further properties of the module *)

(** ** Invariant rules for the two loops *)

(** An invariant of the body of the [while] holds when the loop stops,
    together with the negated test. *)
Lemma while_loop_invariant (I : sim_state → Prop) (i : nat) :
  (∀ st st', I st → sim_cond i st = Some true → sim_body i st = Some st' → I st') →
  ∀ st st', I st → while_loop i st = Some st' →
    I st' ∧ sim_cond i st' = Some false.
Proof.
  intros Hpres st. remember (gap i st) as g eqn:Hg. revert st Hg.
  induction g as [g IH] using lt_wf_ind. intros st -> st' HI.
  rewrite while_loop_eq.
  destruct (sim_cond i st) as [[|]|] eqn:Hc; [|by intros [= <-]|done].
  destruct (sim_body i st) as [st1|] eqn:Hb; [|done].
  intros Hrun. eapply (IH (gap i st1)); [by eapply sim_body_gap | done | by eapply Hpres | done].
Qed.

(** A family [J] of assertions, [J m] reading "positions [m ..] are done",
    threaded through [for i in range(k-1, -1, -1)]. *)
Lemma for_each_down_invariant {St : Type} (body : nat → St → option St)
    (J : nat → St → Prop) (k : nat) :
  (∀ (i : nat) s s', (i < k)%nat → J (S i) s → body i s = Some s' → J i s') →
  ∀ s s', J k s → Py.for_each (reverse (seq 0 k)) body s = Some s' → J 0%nat s'.
Proof.
  induction k as [|k IH]; intros Hstep s s' HJ Hrun.
  - simpl in Hrun. by injection Hrun as <-.
  - rewrite range_down_S, for_each_cons in Hrun.
    destruct (body k s) as [s1|] eqn:Hb; simpl in Hrun; [|done].
    eapply IH; [|by eapply (Hstep k); [lia|..] | done].
    intros i t t' Hi. apply Hstep. lia.
Qed.

(** ** Replaying prefix operations *)

Lemma prefix_ops_snoc ks k l :
  prefix_ops (ks ++ [k]) l = raise_prefix 1 k (prefix_ops ks l).
Proof. revert l. induction ks as [|k' ks IH]; intros l; simpl; [done | apply IH]. Qed.

Lemma trace_of_snoc l ks k :
  trace_of l (ks ++ [k]) = trace_of l ks ++ [raise_prefix 1 k (prefix_ops ks l)].
Proof.
  revert l. induction ks as [|k' ks IH]; intros l; simpl; [done|].
  by rewrite IH.
Qed.

Lemma last_trace_of l ks : last (trace_of l ks) = Some (prefix_ops ks l).
Proof.
  revert l. induction ks as [|k ks IH]; intros l; [done|].
  change (trace_of l (k :: ks)) with (l :: trace_of (raise_prefix 1 k l) ks).
  rewrite last_cons, IH. done.
Qed.

Lemma length_trace_of l ks : length (trace_of l ks) = S (length ks).
Proof.
  revert l. induction ks as [|k ks IH]; intros l; [done|].
  simpl. by rewrite IH.
Qed.

Lemma length_prefix_ops ks l : length (prefix_ops ks l) = length l.
Proof.
  revert l. induction ks as [|k ks IH]; intros l; simpl; [done|].
  by rewrite IH, length_raise_prefix.
Qed.

Lemma non_increasing_snoc ks (k lo : nat) :
  non_increasing ks → Forall (λ k', lo ≤ k')%nat ks → (k ≤ lo)%nat →
  non_increasing (ks ++ [k]).
Proof.
  intros Hks Hlo Hk i j a b Hij Ha Hb.
  apply lookup_app_Some in Hb as [Hb|[Hlen Hb]].
  - pose proof (lookup_lt_Some _ _ _ Hb).
    rewrite lookup_app_l in Ha by lia. exact (Hks i j a b Hij Ha Hb).
  - apply list_lookup_singleton_Some in Hb as [_ <-].
    apply lookup_app_Some in Ha as [Ha|[_ Ha]].
    + pose proof (proj1 (Forall_lookup _ _) Hlo i a Ha) as Hge. simpl in Hge. lia.
    + apply list_lookup_singleton_Some in Ha as [_ <-]. lia.
Qed.

(** ** The simulation as a replay of prefix operations *)

Section replay.

Variable vs : list Z.
Variable M : Z.
Hypothesis Hnd : non_decreasing vs.
Hypothesis HM : last vs = Some M.

Local Abbreviation lvl := (levelled vs M).

(** A working list that has not overshot the level [M] is non-decreasing. *)
Lemma levelled_non_decreasing c (k : nat) x :
  vs !! k = Some x → x + c ≤ M → non_decreasing (lvl c (S k)).
Proof.
  intros Hx Hc. pose proof (lookup_lt_Some _ _ _ Hx) as Hk.
  intros i a b Hi Ha Hb. rewrite length_levelled in Hi by lia.
  rewrite levelled_lookup in Ha, Hb by lia.
  destruct (lookup_lt_is_Some_2 vs i) as [u Hu]; [lia|].
  destruct (lookup_lt_is_Some_2 vs (i - 1)) as [w Hw]; [lia|].
  rewrite Hu in Ha. rewrite Hw in Hb. simpl in Ha, Hb.
  pose proof (Hnd i u w Hi Hu Hw) as Hwu.
  pose proof (non_decreasing_le vs (i - 1) k w x Hnd) as Hwx.
  repeat case_decide; simplify_eq/=; try lia.
  pose proof (Hwx ltac:(lia) Hw Hx). lia.
Qed.

Lemma last_levelled c (k : nat) : (k < length vs)%nat → last (lvl c k) = Some M.
Proof.
  intros Hk. rewrite last_lookup, length_levelled, levelled_lookup by lia.
  rewrite decide_False by lia. by rewrite decide_True by lia.
Qed.

Lemma replay_inv_weaken (lo lo' : nat) st :
  (lo' ≤ lo)%nat → replay_inv vs M lo st → replay_inv vs M lo' st.
Proof.
  intros Hlo (ks & Hst & Hcur & Hops & Hks & Hni & Hall).
  exists ks. split_and!; [done.. | | done | done].
  eapply Forall_impl; [done|]. simpl. intros; lia.
Qed.

(** One round of the [while] at position [i], below the level. *)
Lemma replay_inv_body (i : nat) x c st st' :
  vs !! i = Some x → (S i < length vs)%nat →
  current_volumes st = lvl c (S i) → x + c < M →
  replay_inv vs M (S i) st → sim_body i st = Some st' →
  current_volumes st' = lvl (c + 1) (S i) ∧ replay_inv vs M (S i) st'.
Proof.
  intros Hx Hi Hcur Hc (ks & Hst & Hops_cur & Hops & Hks & Hni & Hall) Hbody.
  rewrite sim_body_in_range in Hbody by (rewrite Hcur, length_levelled; lia).
  injection Hbody as <-. simpl.
  assert (raise_prefix 1 (S i) (current_volumes st) = lvl (c + 1) (S i)) as Hnew
    by (rewrite Hcur; apply raise_levelled; lia).
  split; [done|].
  exists (ks ++ [S i]). simpl. split_and!.
  - by rewrite trace_of_snoc, Hst, Hops_cur.
  - by rewrite prefix_ops_snoc, Hops_cur.
  - rewrite length_app. simpl. lia.
  - apply Forall_app. split; [done|]. apply Forall_singleton. lia.
  - eapply (non_increasing_snoc ks (S i) (S i)); [done | | lia].
    eapply Forall_impl; [done|]. simpl. intros; lia.
  - apply Forall_app. split; [done|]. apply Forall_singleton.
    rewrite Hnew. split_and!.
    + apply length_levelled. lia.
    + apply (levelled_non_decreasing (c + 1) i x); [done | lia].
    + apply last_levelled. lia.
Qed.

(** The test of the [while] at position [i] of such a working list. *)
Lemma sim_cond_levelled (i : nat) x c st :
  vs !! i = Some x → (S i < length vs)%nat →
  current_volumes st = lvl c (S i) →
  sim_cond i st = Some (bool_decide (x + c < M)).
Proof.
  intros Hx Hi Hcur. unfold sim_cond, Py.getitem. rewrite Hcur.
  replace (i + 1)%nat with (S i) by lia.
  rewrite !levelled_lookup by lia.
  rewrite (decide_True (P := (i < S i)%nat)) by lia.
  rewrite (decide_False (P := (S i < S i)%nat)) by lia.
  rewrite (decide_True (P := (S i < length vs)%nat)) by lia.
  by rewrite Hx.
Qed.

(** The whole [while] at position [i]. *)
Lemma while_loop_replay (i : nat) x x' st st' :
  vs !! i = Some x → vs !! S i = Some x' →
  current_volumes st = lvl (M - x') (S i) →
  replay_inv vs M (S (S i)) st →
  while_loop i st = Some st' →
  current_volumes st' = lvl (M - x) i ∧ replay_inv vs M (S i) st'.
Proof.
  intros Hx Hx' Hcur Hinv Hrun.
  pose proof (lookup_lt_Some _ _ _ Hx') as Hi.
  pose proof (non_decreasing_adjacent _ _ _ _ Hnd Hx Hx') as Hle.
  destruct (while_loop_invariant
    (λ s, (∃ c, c ≤ M - x ∧ current_volumes s = lvl c (S i)) ∧
          replay_inv vs M (S i) s) i) with (st := st) (st' := st')
    as [[(c & Hc & Hcur') Hinv'] Hstop].
  - intros s s' [(c & Hc & Hs) Hs_inv] Hcond Hbody.
    rewrite (sim_cond_levelled i x c s) in Hcond by done.
    injection Hcond as Hcond. apply bool_decide_eq_true in Hcond.
    destruct (replay_inv_body i x c s s') as [Hs' Hs'_inv]; [done..|].
    split; [|done]. exists (c + 1). split; [lia | done].
  - split; [|by eapply replay_inv_weaken; [|done]; lia].
    exists (M - x'). split; [lia | done].
  - done.
  - assert (c = M - x) as ->.
    { rewrite (sim_cond_levelled i x c st') in Hstop by done.
      injection Hstop as Hstop. apply bool_decide_eq_false in Hstop. lia. }
    split; [|done]. rewrite Hcur'.
    apply (levelled_finish vs M (M - x) i x); [done | lia].
Qed.

(** The rounds for positions [k-1] down to [0]. *)
Lemma simulate_scan_replay (k : nat) x st st' :
  vs !! k = Some x →
  current_volumes st = lvl (M - x) k →
  replay_inv vs M (S k) st →
  Py.for_each (reverse (seq 0 k)) while_loop st = Some st' →
  replay_inv vs M 1 st'.
Proof.
  intros Hx Hcur Hinv Hrun.
  apply (for_each_down_invariant while_loop
    (λ m s, (∃ y, vs !! m = Some y ∧ current_volumes s = lvl (M - y) m) ∧
            replay_inv vs M (S m) s) k) with (s := st) (s' := st'); [|eauto|done].
  intros i s s' Hi [(y & Hy & Hs) Hs_inv] Hloop.
  destruct (lookup_lt_is_Some_2 vs i) as [z Hz].
  { apply lookup_lt_Some in Hy. lia. }
  destruct (while_loop_replay i z y s s') as [Hs' Hs'_inv]; [done..|].
  split; [|done]. by exists z.
Qed.

End replay.

(** On a feasible non-empty input the simulation returns the replay of a
    sequence of prefix operations that ends at the level of the last
    element. *)
Lemma simulate_replay vs x0 M :
  non_decreasing vs → head vs = Some x0 → last vs = Some M →
  ∃ ks, simulate_equalization vs = Some (Z.of_nat (length ks), trace_of vs ks) ∧
        Z.of_nat (length ks) = M - x0 ∧
        prefix_ops ks vs = replicate (length vs) M ∧
        Forall (λ k, 1 ≤ k < length vs)%nat ks ∧
        non_increasing ks ∧
        Forall (λ A, length A = length vs ∧ non_decreasing A ∧ last A = Some M)
               (trace_of vs ks).
Proof.
  intros Hnd Hhead HM.
  destruct (simulate_equalization_feasible vs x0 M) as (T & Hsim0 & Hlast & _); [done..|].
  pose proof Hsim0 as Hsim. unfold simulate_equalization in Hsim.
  rewrite can_equalize_feasible in Hsim by done. simpl in Hsim.
  rewrite range_down_len in Hsim.
  destruct (Py.for_each _ _ _) as [st|] eqn:Hrun; simpl in Hsim; [|done].
  injection Hsim as Hops <-.
  pose proof (last_position vs M HM) as Hpos.
  pose proof (lookup_lt_Some _ _ _ Hpos) as Hn.
  assert (replay_inv vs M 1 st) as (ks & Hst & Hcur & Hcount & Hks & Hni & Hall).
  { eapply (simulate_scan_replay vs M Hnd HM (length vs - 1)%nat M);
      [exact Hpos | | | exact Hrun].
    - simpl. by rewrite Z.sub_diag, levelled_start.
    - exists []. simpl. split_and!; [done.. | | |].
      + apply Forall_nil_2.
      + intros i j a b _ Ha. done.
      + apply Forall_singleton. done. }
  exists ks.
  rewrite <- Hcount, <- Hst, Hops. split_and!; [done | done | | done..].
  assert (Some (prefix_ops ks vs) = Some (replicate (length vs) M)) as [= ->]; [|done].
  by rewrite <- last_trace_of, <- Hst.
Qed.

(** ** What prefix operations can and cannot do *)

Lemma head_raise_prefix (k : nat) l x :
  head l = Some x →
  head (raise_prefix 1 k l) = Some (if decide (1 ≤ k)%nat then x + 1 else x).
Proof.
  rewrite !head_lookup, raise_prefix_lookup. intros ->.
  repeat case_decide; try lia; done.
Qed.

Lemma last_raise_prefix (k : nat) l M :
  last l = Some M →
  last (raise_prefix 1 k l) = Some (if decide (length l ≤ k)%nat then M + 1 else M).
Proof.
  rewrite !last_lookup, length_raise_prefix, raise_prefix_lookup. intros HM.
  pose proof (lookup_lt_Some _ _ _ HM). rewrite HM.
  repeat case_decide; try lia; done.
Qed.

Lemma level_head_last l x M : level l → head l = Some x → last l = Some M → x = M.
Proof.
  intros Hl Hx HM. apply Hl; [by apply head_Some_elem_of | by apply last_Some_elem_of].
Qed.

(** Each prefix operation narrows the distance between the first and the
    last reservoir by at most one. *)
Lemma prefix_ops_lower_bound ks l x M :
  head l = Some x → last l = Some M → level (prefix_ops ks l) →
  M - x ≤ Z.of_nat (length ks).
Proof.
  revert l x M. induction ks as [|k ks IH]; intros l x M Hx HM Hlevel; simpl in *.
  - rewrite (level_head_last l x M); [lia | done..].
  - pose proof (IH _ _ _ (head_raise_prefix k l x Hx) (last_raise_prefix k l M HM) Hlevel).
    repeat case_decide; lia.
Qed.

(** A reservoir above its right neighbour stays above it. *)
Lemma raise_prefix_inversion (k j : nat) l y x :
  l !! j = Some y → l !! S j = Some x → x < y →
  ∃ y' x', raise_prefix 1 k l !! j = Some y' ∧
           raise_prefix 1 k l !! S j = Some x' ∧ x' < y'.
Proof.
  intros Hy Hx Hxy. rewrite !raise_prefix_lookup, Hy, Hx.
  repeat case_decide; try lia; simpl; eexists _, _; split_and!; try done; lia.
Qed.

Lemma prefix_ops_inversion ks (j : nat) l y x :
  l !! j = Some y → l !! S j = Some x → x < y → ¬ level (prefix_ops ks l).
Proof.
  revert l y x. induction ks as [|k ks IH]; intros l y x Hy Hx Hxy; simpl.
  - intros Hl. pose proof (Hl y x) as Heq.
    rewrite Heq in Hxy; [lia | by eapply list_elem_of_lookup_2..].
  - destruct (raise_prefix_inversion k j l y x) as (y' & x' & Hy' & Hx' & Hlt); [done..|].
    by eapply IH.
Qed.

(** When the scan answers [False] it has met an inversion. *)
Lemma can_equalize_loop_false vs idx :
  (∀ i, i ∈ idx → (1 ≤ i)%nat) →
  can_equalize_loop vs idx = Some false →
  ∃ (j : nat) y x, vs !! j = Some y ∧ vs !! S j = Some x ∧ x < y.
Proof.
  induction idx as [|i idx IH]; intros Hidx Hrun; simpl in Hrun; [done|].
  unfold Py.getitem in Hrun.
  destruct (vs !! i) as [a|] eqn:Ha; simpl in Hrun; [|done].
  destruct (vs !! (i - 1)%nat) as [b|] eqn:Hb; simpl in Hrun; [|done].
  case_bool_decide as Hab.
  - pose proof (Hidx i ltac:(left)) as Hi.
    exists (i - 1)%nat, b, a. replace (S (i - 1)) with i by lia. done.
  - apply IH; [|done]. intros j Hj. apply Hidx. by right.
Qed.

Lemma can_equalize_false_inversion vs :
  can_equalize vs = Some false →
  ∃ (j : nat) y x, vs !! j = Some y ∧ vs !! S j = Some x ∧ x < y.
Proof.
  unfold can_equalize. rewrite range_1_len. apply can_equalize_loop_false.
  intros i Hi%elem_of_seq. lia.
Qed.

Lemma level_replicate n (c : Z) : level (replicate n c).
Proof.
  intros x y Hx%elem_of_replicate_inv Hy%elem_of_replicate_inv. congruence.
Qed.

Lemma non_decreasing_replicate n (c : Z) : non_decreasing (replicate n c).
Proof.
  intros i x y Hi Hx%lookup_replicate_1 Hy%lookup_replicate_1.
  destruct Hx as [-> _], Hy as [-> _]. lia.
Qed.

Lemma last_replicate n (c : Z) : (0 < n)%nat → last (replicate n c) = Some c.
Proof.
  intros Hn. rewrite last_lookup, length_replicate. apply lookup_replicate_2. lia.
Qed.

Lemma level_non_decreasing l : level l → non_decreasing l.
Proof.
  intros Hl i x y Hi Hx Hy.
  rewrite (Hl x y); [lia | by eapply list_elem_of_lookup_2..].
Qed.

Lemma level_constant l M : level l → last l = Some M → l = replicate (length l) M.
Proof.
  intros Hl HM. symmetry. apply replicate_as_Forall. split; [done|].
  apply Forall_forall. intros z Hz. apply Hl; [by apply last_Some_elem_of | done].
Qed.

(** ** [visualize_equalization] *)



(** X2. On an input that is not non-decreasing [visualize_equalization]
    returns [-1] with the input list as it was given, and shows nothing,
    whatever [show_plot] says. *)
Theorem visualize_equalization_infeasible (vs : list Z) (show_plot : bool) :
  ¬ non_decreasing vs →
  visualize_equalization vs show_plot = Some ((-1, vs), []).
Proof.
  intros Hnd%can_equalize_infeasible.
  unfold visualize_equalization, simulate_equalization. by rewrite Hnd.
Qed.

Lemma visualize_equalization_infeasible_witness :
  visualize_equalization [3; 2; 1] true = Some ((-1, [3; 2; 1]), []).
Proof.
  apply visualize_equalization_infeasible.
  intros H. pose proof (H 1%nat 2 3 ltac:(simpl; lia) eq_refl eq_refl). lia.
Defined.


(** ** [min_operations] and the caller's list *)

(** X4. [min_operations] leaves the caller's list as it was when the
    input is not non-decreasing, and also when all its reservoirs are
    level already (the empty list included). *)
Theorem min_operations_run_unchanged (vs : list Z) :
  ¬ non_decreasing vs ∨ level vs →
  ∃ r, min_operations_run vs = Some (r, vs).
Proof.
  intros [Hnd%can_equalize_infeasible | Hlevel].
  - exists (-1). unfold min_operations_run. by rewrite Hnd.
  - destruct (feasible_cases vs) as [->|(a & b & Ha & Hb)]; [by exists 0|].
    exists (b - a).
    rewrite (min_operations_run_feasible vs a b);
      [|by apply level_non_decreasing|done..].
    by rewrite <- (level_constant vs b).
Qed.

Lemma min_operations_run_unchanged_witness :
  ∃ r, min_operations_run [4; 4; 4] = Some (r, [4; 4; 4]).
Proof.
  apply min_operations_run_unchanged. right.
  intros x y Hx Hy.
  repeat (apply elem_of_cons in Hx as [->|Hx]);
    repeat (apply elem_of_cons in Hy as [->|Hy]);
    try reflexivity; by apply elem_of_nil in Hx || by apply elem_of_nil in Hy.
Defined.

(** X5. On a non-decreasing non-empty input, when [min_operations]
    returns the caller's list holds the last element of the input in every
    position. *)
Theorem min_operations_run_levels_input (vs : list Z) (b : Z) :
  non_decreasing vs → last vs = Some b →
  ∃ r, min_operations_run vs = Some (r, replicate (length vs) b).
Proof.
  intros Hnd Hb. destruct (feasible_cases vs) as [->|(a & b' & Ha & Hb')]; [done|].
  assert (b' = b) as -> by congruence.
  exists (b - a). by apply min_operations_run_feasible.
Qed.

Lemma min_operations_run_levels_input_witness :
  ∃ r, min_operations_run [0; 1; 2; 3] = Some (r, replicate (length [0; 1; 2; 3]) 3).
Proof.
  apply min_operations_run_levels_input; [|done].
  repeat (apply non_decreasing_cons; [lia|]). apply non_decreasing_singleton.
Defined.

(** X6. After [min_operations] has run on a non-decreasing list, a second
    call on the same list returns [0], and [simulate_equalization] on it
    returns [0] with a trace of that one state. *)
Theorem min_operations_run_twice (vs : list Z) :
  non_decreasing vs →
  ∃ r vs', min_operations_run vs = Some (r, vs') ∧
           min_operations vs' = Some 0 ∧
           simulate_equalization vs' = Some (0, [vs']).
Proof.
  intros Hnd. destruct (feasible_cases vs) as [->|(a & b & Ha & Hb)].
  - by exists 0, [].
  - exists (b - a), (replicate (length vs) b).
    assert (0 < length vs)%nat as Hn by (destruct vs; simpl; [done | lia]).
    split; [by apply min_operations_run_feasible|].
    pose proof (non_decreasing_replicate (length vs) b) as Hnd'.
    assert (head (replicate (length vs) b) = Some b) as Hhead
      by (by apply head_replicate_Some).
    pose proof (last_replicate (length vs) b Hn) as Hlast.
    split.
    + unfold min_operations.
      rewrite (min_operations_run_feasible _ b b) by done.
      simpl. f_equal. lia.
    + destruct (simulate_equalization_feasible _ b b Hnd' Hhead Hlast)
        as (T & Hsim & HT & Hlen & _).
      rewrite Hsim, Z.sub_diag. do 2 f_equal.
      destruct T as [|A [|B T]]; simpl in Hlen; [lia | | lia].
      simpl in HT. rewrite length_replicate in HT. congruence.
Qed.

Lemma min_operations_run_twice_witness :
  ∃ r vs', min_operations_run [1; 2] = Some (r, vs') ∧
           min_operations vs' = Some 0 ∧
           simulate_equalization vs' = Some (0, [vs']).
Proof.
  apply min_operations_run_twice.
  repeat (apply non_decreasing_cons; [lia|]). apply non_decreasing_singleton.
Defined.

(** X7. On a list of [n] equal volumes, for any [n] (zero included),
    [min_operations] returns [0]. *)
Theorem min_operations_constant (n : nat) (c : Z) :
  min_operations (replicate n c) = Some 0.
Proof.
  destruct n as [|n]; [done|].
  unfold min_operations.
  rewrite (min_operations_run_feasible _ c c).
  - simpl. f_equal. lia.
  - apply non_decreasing_replicate.
  - done.
  - apply last_replicate. lia.
Qed.

(** ** The trace of [simulate_equalization] *)

(** X8. On a non-decreasing input the trace [simulate_equalization]
    returns is the input followed, one state per operation, by the replay
    of a sequence of prefix operations; their lengths [k] lie in
    [1 .. n-1], so the last reservoir is never raised, and no operation is
    longer than the one before it. *)
Theorem simulate_trace_is_replay (vs : list Z) :
  non_decreasing vs →
  ∃ ks : list nat,
    simulate_equalization vs = Some (Z.of_nat (length ks), trace_of vs ks) ∧
    Forall (λ k, 1 ≤ k < length vs)%nat ks ∧
    non_increasing ks.
Proof.
  intros Hnd. destruct (feasible_cases vs) as [->|(a & b & Ha & Hb)].
  - exists []. split_and!; [done | apply Forall_nil_2 | by intros i j x y _ Hx].
  - destruct (simulate_replay vs a b) as (ks & Hsim & _ & _ & Hks & Hni & _); [done..|].
    by exists ks.
Qed.

Lemma simulate_trace_is_replay_witness :
  ∃ ks : list nat,
    simulate_equalization [0; 1; 2; 3] =
      Some (Z.of_nat (length ks), trace_of [0; 1; 2; 3] ks) ∧
    Forall (λ k, 1 ≤ k < length [0; 1; 2; 3])%nat ks ∧
    non_increasing ks.
Proof.
  apply simulate_trace_is_replay.
  repeat (apply non_decreasing_cons; [lia|]). apply non_decreasing_singleton.
Defined.

(** X9. On a non-decreasing non-empty input the trace starts with the
    input, and every state in it has the length of the input, is itself
    non-decreasing, and ends in the input's last element. *)
Theorem simulate_states_feasible (vs : list Z) (b : Z) :
  non_decreasing vs → last vs = Some b →
  ∃ ops T, simulate_equalization vs = Some (ops, T) ∧
           head T = Some vs ∧
           Forall (λ A, length A = length vs ∧ non_decreasing A ∧ last A = Some b) T.
Proof.
  intros Hnd Hb. destruct (feasible_cases vs) as [->|(a & b' & Ha & Hb')]; [done|].
  assert (b' = b) as -> by congruence.
  destruct (simulate_replay vs a b) as (ks & Hsim & _ & _ & _ & _ & Hall); [done..|].
  eexists _, _. split_and!; [done | | done]. by destruct ks.
Qed.

Lemma simulate_states_feasible_witness :
  ∃ ops T, simulate_equalization [-2; 0; 0; 3] = Some (ops, T) ∧
           head T = Some [-2; 0; 0; 3] ∧
           Forall (λ A, length A = length [-2; 0; 0; 3] ∧ non_decreasing A ∧
                        last A = Some 3) T.
Proof.
  apply simulate_states_feasible; [|done].
  repeat (apply non_decreasing_cons; [lia|]). apply non_decreasing_singleton.
Defined.

(** ** Feasibility and minimality *)

Lemma non_decreasing_equalizable vs : non_decreasing vs → equalizable vs.
Proof.
  intros Hnd. destruct (feasible_cases vs) as [->|(x0 & M & Hx0 & HM)].
  - exists []. split; [apply Forall_nil_2 | by intros x y Hx%elem_of_nil].
  - destruct (simulate_replay vs x0 M) as (ks & _ & _ & Hfinal & Hks & _); [done..|].
    exists ks. split.
    + eapply Forall_impl; [done|]. simpl. intros; lia.
    + rewrite Hfinal. apply level_replicate.
Qed.

Lemma infeasible_not_equalizable vs : can_equalize vs = Some false → ¬ equalizable vs.
Proof.
  intros (j & y & x & Hy & Hx & Hxy)%can_equalize_false_inversion (ks & _ & Hlevel).
  by destruct (prefix_ops_inversion ks j vs y x).
Qed.

(** X10. [can_equalize] decides whether the reservoirs can be levelled at
    all: it returns true exactly when some sequence of prefix operations
    (each on the first [k] reservoirs, [1 <= k <= n]) makes all volumes
    equal. *)
Theorem can_equalize_iff_equalizable (vs : list Z) :
  ∃ b : bool, can_equalize vs = Some b ∧ (b = true ↔ equalizable vs).
Proof.
  destruct (can_equalize_spec vs) as (b & Hb & Hiff).
  exists b. split; [done|]. split.
  - intros Hnd%Hiff. by apply non_decreasing_equalizable.
  - intros Heq. destruct b; [done|]. by destruct (infeasible_not_equalizable vs).
Qed.

(** X11. On a non-decreasing input the integer [min_operations] returns
    is the minimum number of prefix operations that level the
    reservoirs: some sequence of that many operations does it, and no
    sequence of prefix operations that does it is shorter. *)
Theorem min_operations_is_minimum (vs : list Z) :
  non_decreasing vs →
  ∃ c, min_operations vs = Some c ∧
       (∃ ks, Forall (λ k, 1 ≤ k ≤ length vs)%nat ks ∧
              level (prefix_ops ks vs) ∧ Z.of_nat (length ks) = c) ∧
       (∀ ks, level (prefix_ops ks vs) → c ≤ Z.of_nat (length ks)).
Proof.
  intros Hnd. destruct (feasible_cases vs) as [->|(x0 & M & Hx0 & HM)].
  - exists 0. split_and!; [done | | intros; lia].
    exists []. split_and!; [apply Forall_nil_2 | by intros x y Hx%elem_of_nil | done].
  - exists (M - x0). split_and!.
    + unfold min_operations. by rewrite (min_operations_run_feasible vs x0 M).
    + destruct (simulate_replay vs x0 M) as (ks & _ & Hlen & Hfinal & Hks & _); [done..|].
      exists ks. split_and!; [| |done].
      * eapply Forall_impl; [done|]. simpl. intros; lia.
      * rewrite Hfinal. apply level_replicate.
    + intros ks Hlevel. by eapply prefix_ops_lower_bound.
Qed.

Lemma min_operations_is_minimum_witness :
  ∃ c, min_operations [1; 1; 5; 5; 5] = Some c ∧
       (∃ ks, Forall (λ k, 1 ≤ k ≤ length [1; 1; 5; 5; 5])%nat ks ∧
              level (prefix_ops ks [1; 1; 5; 5; 5]) ∧ Z.of_nat (length ks) = c) ∧
       (∀ ks, level (prefix_ops ks [1; 1; 5; 5; 5]) → c ≤ Z.of_nat (length ks)).
Proof.
  apply min_operations_is_minimum.
  repeat (apply non_decreasing_cons; [lia|]). apply non_decreasing_singleton.
Defined.

(** X12. The sentinel is exact: [min_operations] returns [-1] if and only
    if no sequence of prefix operations levels the reservoirs. *)
Theorem min_operations_sentinel_iff (vs : list Z) :
  ∃ r, min_operations vs = Some r ∧ (r = -1 ↔ ¬ equalizable vs).
Proof.
  destruct (can_equalize_spec vs) as ([|] & Hb & Hiff).
  - pose proof (proj1 Hiff eq_refl) as Hnd.
    pose proof (non_decreasing_equalizable vs Hnd) as Heq.
    destruct (feasible_cases vs) as [->|(x0 & M & Hx0 & HM)].
    + exists 0. split; [done|]. split; [lia | done].
    + exists (M - x0). split.
      * unfold min_operations. by rewrite (min_operations_run_feasible vs x0 M).
      * pose proof (head_le_last vs x0 M Hnd Hx0 HM). split; [lia | done].
  - exists (-1). split.
    + unfold min_operations, min_operations_run. by rewrite Hb.
    + split; [|done]. intros _. by apply infeasible_not_equalizable.
Qed.
